(** * The static NIRF prediction engine

    A shallow embedding of [src/utils/predictionEngine.ts] and the
    properties of its single exported function [predictStatic].

    Number model.  The engine computes on JavaScript numbers.  Here a
    number is an exact rational ([Q], compared with [==]): finite values
    and exact arithmetic, so [NaN], the infinities and binary64 rounding
    are outside the model.  Numbers that the code makes integral with
    [Math.round] or [Math.floor] are kept as [Z]. *)

From Stdlib Require Import QArith ZArith NArith Qminmax Qround Qabs.
From Stdlib Require Import String Ascii List DecimalString DecimalN.
From Stdlib Require Import Sorted Permutation Morphisms Lqa Lia.
Import ListNotations.

Open Scope Q_scope.

(** ** The ECMAScript operations the engine calls *)

Module JS.

(** An [async] function settles its promise: it fulfils it with the
    returned value, or rejects it with the exception its body threw. *)
Inductive Error : Set := TypeError.

Inductive Promise (A : Type) : Type :=
| Fulfilled (value : A)
| Rejected (reason : Error).
Arguments Fulfilled {A} value.
Arguments Rejected {A} reason.

Definition bind {A B : Type} (m : Promise A) (k : A -> Promise B) : Promise B :=
  match m with
  | Fulfilled a => k a
  | Rejected e => Rejected e
  end.

(** [Math.round]: the nearest integer, a tie going towards +infinity. *)
Definition Math_round (x : Q) : Z := Qfloor (x + (1 # 2)).

Definition Math_floor (x : Q) : Z := Qfloor x.

Definition Math_abs (x : Q) : Q := Qabs x.

(** [x < y] on numbers, as a boolean. *)
Definition lt (x y : Q) : bool := if Qlt_le_dec x y then true else false.

(** *** Objects used as dictionaries

    A [Record<string, number>] is an association list in property
    creation order, which is the order [Object.entries] and [for ... in]
    follow for string keys. *)
Definition Dict : Type := list (string * Q).

(** [o[k] = v]: an existing property keeps its place, a new one is
    created last. *)
Fixpoint set (o : Dict) (k : string) (v : Q) : Dict :=
  match o with
  | [] => [(k, v)]
  | (k', v') :: o' =>
      if String.eqb k' k then (k', v) :: o' else (k', v') :: set o' k v
  end.

Fixpoint get (o : Dict) (k : string) : option Q :=
  match o with
  | [] => None
  | (k', v') :: o' => if String.eqb k' k then Some v' else get o' k
  end.

Definition Object_entries (o : Dict) : list (string * Q) := o.

(** *** [Array.prototype.sort]

    The sort is stable.  [compareFn a b > 0] puts [a] after [b]; on a
    negative or zero result the two keep their relative order.  For a
    comparator that is a difference of keys, as all three in the engine
    are, stability fixes the result, whatever algorithm the host runs;
    it is computed here by insertion from the right. *)
Section Sort.
Context {A : Type} (compareFn : A -> A -> Q).

Fixpoint insert (a : A) (l : list A) : list A :=
  match l with
  | [] => [a]
  | b :: l' => if lt 0 (compareFn a b) then b :: insert a l' else a :: l
  end.

Definition sort (l : list A) : list A := fold_right insert [] l.
End Sort.

(** [xs[0][0]] on an array of entries: [xs[0]] is [undefined] on an
    empty array, and reading a property of [undefined] throws a
    [TypeError]. *)
Definition first_key (xs : list (string * Q)) : Promise string :=
  match nth_error xs 0 with
  | Some entry => Fulfilled (fst entry)
  | None => Rejected TypeError
  end.

(** [xs.slice(0, n)] *)
Definition slice0 {A : Type} (n : nat) (xs : list A) : list A := firstn n xs.

(** [xs.push(x)] *)
Definition push {A : Type} (xs : list A) (x : A) : list A := xs ++ [x].

(** *** [Number.prototype.toFixed]

    [toFixed digits x] is the decimal text of the integer [n] nearest to
    [x * 10^digits] (the larger one on a tie), with a point before its
    last [digits] digits, and a leading minus sign when [x < 0].  This
    is the fixed notation, which ECMAScript uses for magnitudes below
    10^21; from there on it prints the binary64 value in exponent
    notation, which has no counterpart on exact rationals. *)
Definition string_of_N (n : N) : string :=
  NilEmpty.string_of_uint (N.to_uint n).

Fixpoint pad_left (width : nat) (s : string) : string :=
  match width with
  | O => s
  | S w => if Nat.ltb (String.length s) width
           then pad_left w (String "0" s) else s
  end.

Definition scaled (digits : nat) (x : Q) : N :=
  Z.to_N (Qfloor (x * inject_Z (10 ^ Z.of_nat digits) + (1 # 2))).

Definition fixed_text (digits : nat) (n : N) : string :=
  let unit := (10 ^ N.of_nat digits)%N in
  match digits with
  | O => string_of_N n
  | S _ => string_of_N (n / unit) ++ "." ++
           pad_left digits (string_of_N (n mod unit))
  end%string.

Definition toFixed (digits : nat) (x : Q) : string :=
  if lt x 0
  then ("-" ++ fixed_text digits (scaled digits (- x)))%string
  else fixed_text digits (scaled digits x).

End JS.

Import JS.

Notation "x <- m ;; k" := (JS.bind m (fun x => k))
  (at level 61, m at next level, right associativity).

(** ** Data model *)

Record NIRFInputs : Type := {
  TLR : Q;
  RPC : Q;
  GO : Q;
  OI : Q;
  PR : Q
}.

Record PredictionResult : Type := {
  predicted_score : Q;
  rank_range_min : Z;
  rank_range_max : Z;
  shap_values : Dict;
  recommendations : list string
}.

(** [keyof NIRFInputs] *)
Module Key.
Inductive t : Set := TLR | RPC | GO | OI | PR.

Definition name (k : t) : string :=
  match k with
  | TLR => "TLR"
  | RPC => "RPC"
  | GO => "GO"
  | OI => "OI"
  | PR => "PR"
  end.
End Key.

(** [inputs[k]] *)
Definition prop (inputs : NIRFInputs) (k : Key.t) : Q :=
  match k with
  | Key.TLR => TLR inputs
  | Key.RPC => RPC inputs
  | Key.GO => GO inputs
  | Key.OI => OI inputs
  | Key.PR => PR inputs
  end.

(** A [Record<keyof NIRFInputs, number>] has a number at each of the
    five keys. *)
Definition Table : Type := Key.t -> Q.

Definition WEIGHTS : Table := fun k =>
  match k with
  | Key.TLR => 0.35
  | Key.RPC => 0.30
  | Key.GO => 0.15
  | Key.OI => 0.10
  | Key.PR => 0.10
  end.

Definition BASELINES : Table := fun k =>
  match k with
  | Key.TLR => 62.5
  | Key.RPC => 47.5
  | Key.GO => 69.0
  | Key.OI => 57.5
  | Key.PR => 50.0
  end.

(** The keys [for (const key in WEIGHTS)] visits, in the order the
    object literal declares them. *)
Definition keys_of_WEIGHTS : list Key.t :=
  [Key.TLR; Key.RPC; Key.GO; Key.OI; Key.PR].

(** ** [predictStatic], step by step *)

(** 1. the predicted score *)
Definition weighted_sum (inputs : NIRFInputs) : Q :=
  fold_left (fun score k => score + prop inputs k * WEIGHTS k) keys_of_WEIGHTS 0.

Definition score (inputs : NIRFInputs) : Q :=
  Qmin 100 (Qmax 0 (weighted_sum inputs + 2.5)).

(** 2. the rank range *)
Definition minExpected : Q := 20.
Definition maxExpected : Q := 95.
Definition totalSamples : Q := 1000.

Definition normalized (score : Q) : Q :=
  (score - minExpected) / (maxExpected - minExpected).

Definition estimatedRank (score : Q) : Z :=
  Z.max 1 (Math_round (totalSamples * (1 - normalized score))).

Definition rankMargin (estimatedRank : Z) : Z :=
  Z.max 5 (Math_floor (inject_Z estimatedRank * 0.12)).

Definition rankMin (estimatedRank : Z) : Z :=
  Z.max 1 (estimatedRank - rankMargin estimatedRank).

Definition rankMax (estimatedRank : Z) : Z :=
  estimatedRank + rankMargin estimatedRank.

(** 3. the attribution of each metric.  The baselines are read from the
    module constant [BASELINES]; they are a parameter here so that their
    influence can be stated. *)
Definition shapValues (baselines : Table) (inputs : NIRFInputs) : Dict :=
  fold_left
    (fun shap k => set shap (Key.name k) ((prop inputs k - baselines k) * WEIGHTS k))
    keys_of_WEIGHTS [].

(** 4. the recommendations *)
Definition observation (feat : string) (val : Q) : string :=
  ("AI Observation: " ++ feat ++
   " is currently below the benchmark, detracting " ++
   toFixed 2 (Math_abs val) ++ " pts from your score.")%string.

Definition sortedShap (shap : Dict) : list (string * Q) :=
  sort (fun a b => snd a - snd b) (Object_entries shap).

(** Logic A: negative impacts *)
Definition logicA (shap : Dict) (recommendations : list string) : list string :=
  fold_left
    (fun recs entry =>
       let '(feat, val) := entry in
       if lt val 0 then push recs (observation feat val) else recs)
    (sortedShap shap) recommendations.

(** Logic B: highest ROI *)
Definition impacts : Dict :=
  fold_left (fun imp k => set imp (Key.name k) (10 * WEIGHTS k)) keys_of_WEIGHTS [].

Definition bestFeat : Promise string :=
  first_key (sort (fun a b => snd b - snd a) (Object_entries impacts)).

Definition recommendB (bestFeat : string) : string :=
  ("ML Recommendation: Improvements in " ++ bestFeat ++
   " will yield the highest score boost based on model weights.")%string.

(** Logic C: critical area *)
Definition topImportance (shap : Dict) : Promise string :=
  first_key
    (sort (fun a b => Math_abs (snd b) - Math_abs (snd a)) (Object_entries shap)).

Definition recommendC (topImportance : string) : string :=
  ("Critical Area: " ++ topImportance ++
   " currently has the most significant impact on your profile variance.")%string.

Definition predictWith (baselines : Table) (inputs : NIRFInputs)
  : Promise PredictionResult :=
  let score := score inputs in
  let estimatedRank := estimatedRank score in
  let shapValues := shapValues baselines inputs in
  let recommendations := logicA shapValues [] in
  bestFeat <- bestFeat ;;
  let recommendations := push recommendations (recommendB bestFeat) in
  topImportance <- topImportance shapValues ;;
  let recommendations := push recommendations (recommendC topImportance) in
  Fulfilled {|
    predicted_score := score;
    rank_range_min := rankMin estimatedRank;
    rank_range_max := rankMax estimatedRank;
    shap_values := shapValues;
    recommendations := slice0 5 recommendations
  |}.

Definition predictStatic (inputs : NIRFInputs) : Promise PredictionResult :=
  predictWith BASELINES inputs.

(** The example profile of the entry form. *)
Definition form_defaults : NIRFInputs :=
  {| TLR := 60; RPC := 40; GO := 70; OI := 55; PR := 20 |}.

Definition uniform (v : Q) : NIRFInputs :=
  {| TLR := v; RPC := v; GO := v; OI := v; PR := v |}.

(** ** The report component ([App], in the same source file)

    The report renders a [PredictionResult]; the parts of it that compute
    are embedded here.  [result] is [null] until a prediction has
    arrived. *)

Module Text.

(** [s.includes(searchString)] *)
Fixpoint includes (s searchString : string) : bool :=
  match s with
  | EmptyString => prefix searchString EmptyString
  | String _ s' => prefix searchString s || includes s' searchString
  end.

(** The text a template literal gives a non-negative integer. *)
Definition of_index (n : nat) : string :=
  NilEmpty.string_of_uint (Nat.to_uint n).

(** [xs.map((x, i) => f(x, i))] *)
Fixpoint map_from {A B : Type} (f : A -> nat -> B) (i : nat) (xs : list A) : list B :=
  match xs with
  | [] => []
  | x :: xs' => f x i :: map_from f (S i) xs'
  end.

Definition mapi {A B : Type} (f : A -> nat -> B) (xs : list A) : list B :=
  map_from f 0 xs.

(** *** [Number(text)] on plain decimal literals

    The value of a text of the form [digits], [digits.digits] or either
    with a leading minus sign, and 0 for the empty text.  [None] stands
    for every other text, which is outside the model: there [Number]
    gives [NaN] or reads a notation that is not embedded here (a bare
    point, an exponent, hexadecimal digits, blanks, Infinity). *)
Fixpoint split_point (s : string) : string * option string :=
  match s with
  | EmptyString => (EmptyString, None)
  | String c s' =>
      if Ascii.eqb c "." then (EmptyString, Some s')
      else let (whole, fraction) := split_point s' in (String c whole, fraction)
  end.

Definition digits (s : string) : option N :=
  match s with
  | EmptyString => None
  | String _ _ => option_map N.of_uint (NilEmpty.uint_of_string s)
  end.

Definition unsigned (s : string) : option Q :=
  let (whole, fraction) := split_point s in
  match digits whole, fraction with
  | Some w, None => Some (inject_Z (Z.of_N w))
  | Some w, Some f =>
      match digits f with
      | Some m =>
          Some (inject_Z (Z.of_N w) +
                inject_Z (Z.of_N m) / inject_Z (10 ^ Z.of_nat (String.length f)))
      | None => None
      end
  | None, _ => None
  end.

Definition Number (s : string) : option Q :=
  match s with
  | EmptyString => Some 0
  | String c s' =>
      if Ascii.eqb c "-" then option_map Qopp (unsigned s') else unsigned s
  end.

(** [xs.map(f)] for an [f] that may leave the model. *)
Fixpoint traverse {A B : Type} (f : A -> option B) (xs : list A) : option (list B) :=
  match xs with
  | [] => Some []
  | x :: xs' =>
      match f x, traverse f xs' with
      | Some y, Some ys => Some (y :: ys)
      | _, _ => None
      end
  end.

End Text.

Module App.

Import Text.

Inductive Icon : Set := TrendingUp | ShieldCheck | AlertTriangle.

(** One [recommendation-box]: whether its class list has [active], the
    icon and the title of its heading, and its text. *)
Record Box : Type := {
  active : bool;
  icon : Icon;
  title : string;
  text : string
}.

Definition recommendationBox (rec : string) (i : nat) : Box :=
  let isMLRec := includes rec "ML Recommendation" in
  let isFocus := includes rec "Critical" in
  {| active := isMLRec;
     icon := if isMLRec then TrendingUp
             else if isFocus then ShieldCheck else AlertTriangle;
     title := if isMLRec then "Predicted Highest ROI"
              else if isFocus then "Strategic Focus"
              else ("Observation " ++ of_index (i + 1))%string;
     text := rec |}.

(** [result?.recommendations.map(...)] *)
Definition recommendationBoxes (result : option PredictionResult) : list Box :=
  match result with
  | None => []
  | Some r => mapi recommendationBox (recommendations r)
  end.

(** Whether the paragraph "Maintain current performance across all
    parameters." is rendered:
    [!result?.recommendations || result.recommendations.length === 0]. *)
Definition showsFallback (result : option PredictionResult) : bool :=
  match result with
  | None => true
  | Some r => Nat.eqb (length (recommendations r)) 0
  end.

(** One bar of the impact chart. *)
Record Bar : Type := {
  name : string;
  impact : Q
}.

(** [shapData]: the attributions rounded to two decimals through their
    text, largest first; empty while there is no result. *)
Definition shapData (result : option PredictionResult) : option (list Bar) :=
  match result with
  | None => Some []
  | Some r =>
      option_map (sort (fun a b => impact b - impact a))
        (traverse
           (fun entry : string * Q =>
              let (name, impact) := entry in
              option_map (fun rounded => {| name := name; impact := rounded |})
                (Number (toFixed 2 impact)))
           (Object_entries (shap_values r)))
  end.

(** The fill of the bar's cell. *)
Definition fill (entry : Bar) : string :=
  if lt 0 (impact entry) then "#3b82f6" else "#f43f5e".

End App.

(** ** Vocabulary of the properties *)

(** The order a sort by a numeric key establishes. *)
Definition ascending {A : Type} (key : A -> Q) (a b : A) : Prop := key a <= key b.

(** The attribution of metric [k]. *)
Definition attribution (baselines : Table) (inputs : NIRFInputs) (k : Key.t) : Q :=
  (prop inputs k - baselines k) * WEIGHTS k.

(** The sum of [f] over the five metrics. *)
Definition sum_metrics (f : Key.t -> Q) : Q :=
  f Key.TLR + f Key.RPC + f Key.GO + f Key.OI + f Key.PR.

(** The entries Logic A reports, and what it says of each. *)
Definition negative (entry : string * Q) : bool := lt (snd entry) 0.

Definition observe (entry : string * Q) : string :=
  observation (fst entry) (snd entry).

(** The character of a decimal digit. *)
Definition digit (d : N) : ascii := ascii_of_N (48 + d).

(** [s] shows [x] to two decimal places: an integer part, a point and
    exactly two digits, the shown value being within half a hundredth
    of [x]. *)
Definition two_decimal_text (x : Q) (s : string) : Prop :=
  exists i d1 d2 : N,
    (d1 < 10)%N /\ (d2 < 10)%N /\
    s = (string_of_N i ++ "." ++ String (digit d1) (String (digit d2) ""))%string /\
    Qabs (inject_Z (Z.of_N (100 * i + 10 * d1 + d2)) / 100 - x) <= 1 # 200.

(** The width of the rank range as the specification states it: at
    least 10, unless 12% of the estimated rank exceeds 5, and then twice
    the floor of that 12%. *)
Definition range_width_as_stated (inputs : NIRFInputs) : Prop :=
  forall result,
    predictStatic inputs = Fulfilled result ->
    let r := estimatedRank (predicted_score result) in
    let width := (rank_range_max result - rank_range_min result)%Z in
    (~ 5 < 0.12 * inject_Z r -> (10 <= width)%Z) /\
    (5 < 0.12 * inject_Z r -> width = (2 * Math_floor (0.12 * inject_Z r))%Z).

(** Two profiles with the same five numbers. *)
Definition same_inputs (a b : NIRFInputs) : Prop :=
  TLR a == TLR b /\ RPC a == RPC b /\ GO a == GO b /\ OI a == OI b /\ PR a == PR b.

Definition same_entry (x y : string * Q) : Prop :=
  fst x = fst y /\ snd x == snd y.

(** Two results with the same content in every field. *)
Definition same_result (r r' : PredictionResult) : Prop :=
  predicted_score r == predicted_score r' /\
  rank_range_min r = rank_range_min r' /\
  rank_range_max r = rank_range_max r' /\
  Forall2 same_entry (shap_values r) (shap_values r') /\
  recommendations r = recommendations r'.

(** Every metric of [a] is at most the same metric of [b]. *)
Definition inputs_le (a b : NIRFInputs) : Prop :=
  forall k : Key.t, prop a k <= prop b k.

(** Every metric lies between [lo] and [hi]. *)
Definition within (lo hi : Q) (inputs : NIRFInputs) : Prop :=
  forall k : Key.t, lo <= prop inputs k <= hi.

(** [Math.min(100, Math.max(0, x))] *)
Definition clamp (x : Q) : Q := Qmin 100 (Qmax 0 x).

(** The profile that sits on every baseline. *)
Definition baseline_profile : NIRFInputs :=
  {| TLR := BASELINES Key.TLR; RPC := BASELINES Key.RPC; GO := BASELINES Key.GO;
     OI := BASELINES Key.OI; PR := BASELINES Key.PR |}.

(** The sum of the attributions in a dictionary. *)
Definition total (shap : Dict) : Q :=
  fold_right (fun entry acc => snd entry + acc) 0 (Object_entries shap).

(** The metrics whose input is below their baseline, in declaration
    order. *)
Definition below_baseline (inputs : NIRFInputs) : list Key.t :=
  filter (fun k => lt (prop inputs k) (BASELINES k)) keys_of_WEIGHTS.

(** The entries of a dictionary whose value is [v]. *)
Definition valued (v : Q) (entries : list (string * Q)) : list (string * Q) :=
  filter (fun entry => Qeq_bool (snd entry) v) entries.

(** The characters of a string. *)
Definition chars (s : string) : list ascii := list_ascii_of_string s.

(** The characters [toFixed] writes for a non-negative number. *)
Definition numeric (c : ascii) : Prop := In c (chars "0123456789.").

(** The title of the [n]-th observation box (from 0). *)
Definition observation_title (n : nat) : string :=
  ("Observation " ++ Text.of_index (n + 1))%string.

(** [x] rounded to hundredths, a tie going away from 0. *)
Definition hundredths (x : Q) : Q :=
  if lt x 0
  then - (inject_Z (Z.of_N (scaled 2 (- x))) / 100)
  else inject_Z (Z.of_N (scaled 2 x)) / 100.

Definition decimal_digit (c : ascii) : Prop := In c (chars "0123456789").

(** The bar [shapData] makes of an entry: the same name, the value in
    hundredths. *)
Definition bar_of (entry : string * Q) (bar : App.Bar) : Prop :=
  App.name bar = fst entry /\ App.impact bar == hundredths (snd entry).

(** The profile with metric [k] increased by [d]. *)
Definition raise (inputs : NIRFInputs) (k : Key.t) (d : Q) : NIRFInputs :=
  match k with
  | Key.TLR => {| TLR := TLR inputs + d; RPC := RPC inputs; GO := GO inputs;
                  OI := OI inputs; PR := PR inputs |}
  | Key.RPC => {| TLR := TLR inputs; RPC := RPC inputs + d; GO := GO inputs;
                  OI := OI inputs; PR := PR inputs |}
  | Key.GO => {| TLR := TLR inputs; RPC := RPC inputs; GO := GO inputs + d;
                 OI := OI inputs; PR := PR inputs |}
  | Key.OI => {| TLR := TLR inputs; RPC := RPC inputs; GO := GO inputs;
                 OI := OI inputs + d; PR := PR inputs |}
  | Key.PR => {| TLR := TLR inputs; RPC := RPC inputs; GO := GO inputs;
                 OI := OI inputs; PR := PR inputs + d |}
  end.

(** ** Facts about the ECMAScript operations *)

Lemma lt_true_iff (x y : Q) : lt x y = true <-> x < y.
Proof.
  unfold lt. destruct (Qlt_le_dec x y) as [H | H]; split; intro H'.
  - exact H.
  - reflexivity.
  - discriminate.
  - exfalso. lra.
Qed.

Lemma lt_false_iff (x y : Q) : lt x y = false <-> y <= x.
Proof.
  unfold lt. destruct (Qlt_le_dec x y) as [H | H]; split; intro H'.
  - discriminate.
  - exfalso. lra.
  - exact H.
  - reflexivity.
Qed.

#[export] Instance lt_Proper : Proper (Qeq ==> Qeq ==> eq) lt.
Proof.
  intros x x' Hx y y' Hy.
  destruct (lt x y) eqn:E; symmetry.
  - apply lt_true_iff. apply lt_true_iff in E. lra.
  - apply lt_false_iff. apply lt_false_iff in E. lra.
Qed.

Section SortFacts.
Context {A : Type} (compareFn : A -> A -> Q).

Lemma insert_Permutation (a : A) (l : list A) :
  Permutation (a :: l) (insert compareFn a l).
Proof.
  induction l as [| b l IH]; simpl.
  - apply Permutation_refl.
  - destruct (lt 0 (compareFn a b)).
    + eapply Permutation_trans; [apply perm_swap |].
      apply perm_skip. exact IH.
    + apply Permutation_refl.
Qed.

Lemma sort_Permutation (l : list A) : Permutation l (sort compareFn l).
Proof.
  induction l as [| a l IH]; simpl.
  - apply perm_nil.
  - eapply Permutation_trans; [| apply insert_Permutation].
    apply perm_skip. exact IH.
Qed.

Lemma sort_length (l : list A) : length (sort compareFn l) = length l.
Proof. symmetry. apply Permutation_length, sort_Permutation. Qed.

(** The comparators of the engine are differences of a numeric key. *)
Variable key : A -> Q.
Hypothesis compareFn_key : forall a b, compareFn a b == key a - key b.

Lemma insert_ascending (a : A) (l : list A) :
  StronglySorted (ascending key) l ->
  StronglySorted (ascending key) (insert compareFn a l).
Proof.
  induction l as [| b l IH]; simpl; intro Hs.
  - constructor; constructor.
  - inversion Hs as [| ? ? Hl Hb]; subst.
    destruct (lt 0 (compareFn a b)) eqn:E.
    + apply lt_true_iff in E. rewrite compareFn_key in E.
      constructor; [apply IH; exact Hl |].
      eapply Permutation_Forall; [apply insert_Permutation |].
      constructor; [unfold ascending; lra | exact Hb].
    + apply lt_false_iff in E. rewrite compareFn_key in E.
      constructor; [exact Hs |].
      constructor; [unfold ascending; lra |].
      eapply Forall_impl; [| exact Hb].
      unfold ascending. intros c Hc. lra.
Qed.

Lemma sort_ascending (l : list A) :
  StronglySorted (ascending key) (sort compareFn l).
Proof.
  induction l as [| a l IH]; simpl.
  - constructor.
  - apply insert_ascending. exact IH.
Qed.

(** Stability: the entries of any one key value keep their order. *)
Lemma insert_stable (v : Q) (a : A) (l : list A) :
  StronglySorted (ascending key) l ->
  filter (fun x => Qeq_bool (key x) v) (insert compareFn a l) =
  filter (fun x => Qeq_bool (key x) v) (a :: l).
Proof.
  induction l as [| b l IH]; intro Hs; [reflexivity |].
  inversion Hs as [| ? ? Hl Hb]; subst.
  cbn [insert]. destruct (lt 0 (compareFn a b)) eqn:E; [| reflexivity].
  apply lt_true_iff in E. rewrite compareFn_key in E.
  cbn [filter]. rewrite (IH Hl). cbn [filter].
  destruct (Qeq_bool (key a) v) eqn:Ea; [| reflexivity].
  destruct (Qeq_bool (key b) v) eqn:Eb; [| reflexivity].
  apply Qeq_bool_iff in Ea, Eb. exfalso. lra.
Qed.

Lemma sort_stable (v : Q) (l : list A) :
  filter (fun x => Qeq_bool (key x) v) (sort compareFn l) =
  filter (fun x => Qeq_bool (key x) v) l.
Proof.
  induction l as [| a l IH]; [reflexivity |].
  cbn [sort fold_right]. fold (sort compareFn l).
  rewrite insert_stable by apply sort_ascending.
  cbn [filter]. rewrite IH. reflexivity.
Qed.
(** A stable sort has one result: the model of [sort] does not depend
    on the algorithm chosen. *)
Lemma stable_sorted_unique (l1 l2 : list A) :
  Permutation l1 l2 ->
  StronglySorted (ascending key) l1 ->
  StronglySorted (ascending key) l2 ->
  (forall v, filter (fun x => Qeq_bool (key x) v) l1 =
             filter (fun x => Qeq_bool (key x) v) l2) ->
  l1 = l2.
Proof.
  revert l2. induction l1 as [| a l1 IH]; intros l2 Hperm Hs1 Hs2 Hstable.
  - apply Permutation_nil in Hperm. symmetry. exact Hperm.
  - destruct l2 as [| b l2].
    { apply Permutation_sym, Permutation_nil in Hperm. discriminate. }
    inversion Hs1 as [| ? ? Hs1' Ha]; subst.
    inversion Hs2 as [| ? ? Hs2' Hb]; subst.
    rewrite Forall_forall in Ha, Hb.
    assert (Hab : key a <= key b).
    { assert (Hin : In b (a :: l1)).
      { eapply Permutation_in; [apply Permutation_sym, Hperm | left; reflexivity]. }
      destruct Hin as [<- | Hin]; [apply Qle_refl | apply Ha, Hin]. }
    assert (Hba : key b <= key a).
    { assert (Hin : In a (b :: l2)).
      { eapply Permutation_in; [apply Hperm | left; reflexivity]. }
      destruct Hin as [<- | Hin]; [apply Qle_refl | apply Hb, Hin]. }
    assert (Ea : Qeq_bool (key a) (key a) = true) by (apply Qeq_bool_iff; reflexivity).
    assert (Eb : Qeq_bool (key b) (key a) = true) by (apply Qeq_bool_iff; lra).
    pose proof (Hstable (key a)) as Hhead. cbn [filter] in Hhead.
    rewrite Ea, Eb in Hhead. injection Hhead as <- _.
    f_equal. apply IH.
    + eapply Permutation_cons_inv. exact Hperm.
    + exact Hs1'.
    + exact Hs2'.
    + intro v. specialize (Hstable v). cbn [filter] in Hstable.
      destruct (Qeq_bool (key a) v); [injection Hstable as Ht |]; assumption.
Qed.

Lemma sort_unique (l l' : list A) :
  Permutation l l' ->
  StronglySorted (ascending key) l' ->
  (forall v, filter (fun x => Qeq_bool (key x) v) l' =
             filter (fun x => Qeq_bool (key x) v) l) ->
  l' = sort compareFn l.
Proof.
  intros Hperm Hsorted Hstable. apply stable_sorted_unique.
  - eapply Permutation_trans; [apply Permutation_sym, Hperm |].
    apply sort_Permutation.
  - exact Hsorted.
  - apply sort_ascending.
  - intro v. rewrite sort_stable. apply Hstable.
Qed.
End SortFacts.

Lemma first_key_sort {compareFn : (string * Q) -> (string * Q) -> Q}
    (xs : list (string * Q)) :
  xs <> [] ->
  exists entry rest,
    sort compareFn xs = entry :: rest /\
    first_key (sort compareFn xs) = Fulfilled (fst entry).
Proof.
  intro Hne. pose proof (sort_length compareFn xs) as Hlen.
  destruct (sort compareFn xs) as [| entry rest] eqn:E.
  - destruct xs; [contradiction | discriminate].
  - exists entry, rest. split; reflexivity.
Qed.

(** *** [toFixed] with two digits *)

Lemma pad_left_2 (k : N) :
  (k < 100)%N ->
  pad_left 2 (string_of_N k) =
  String (digit (k / 10)) (String (digit (k mod 10)) "").
Proof.
  intro Hk.
  assert (Hall : forallb
            (fun j : nat =>
               let k := N.of_nat j in
               String.eqb (pad_left 2 (string_of_N k))
                 (String (digit (k / 10)) (String (digit (k mod 10)) "")))
            (seq 0 100) = true) by (vm_compute; reflexivity).
  rewrite forallb_forall in Hall.
  specialize (Hall (N.to_nat k)).
  cbv zeta in Hall. rewrite N2Nat.id in Hall.
  apply String.eqb_eq, Hall, in_seq. lia.
Qed.

Lemma scaled_2_near (x : Q) :
  0 <= x ->
  Qabs (inject_Z (Z.of_N (scaled 2 x)) / 100 - x) <= 1 # 200.
Proof.
  intro Hx. unfold scaled.
  change (inject_Z (10 ^ Z.of_nat 2)) with 100.
  set (y := x * 100 + (1 # 2)).
  assert (Hy : 0 <= y) by (unfold y; lra).
  pose proof (Qfloor_le y) as Hlo.
  pose proof (Qlt_floor y) as Hhi.
  assert (Hnn : (0 <= Qfloor y)%Z).
  { change 0%Z with (Qfloor 0). apply Qfloor_resp_le. exact Hy. }
  rewrite Z2N.id by exact Hnn.
  rewrite inject_Z_plus in Hhi. change (inject_Z 1) with 1 in Hhi.
  set (f := inject_Z (Qfloor y)) in *.
  setoid_replace (f / 100) with (f * (1 # 100)) by reflexivity.
  apply Qabs_Qle_condition. unfold y in Hlo, Hhi. split; lra.
Qed.

Lemma toFixed_2_two_decimals (x : Q) :
  0 <= x -> two_decimal_text x (toFixed 2 x).
Proof.
  intro Hx. unfold toFixed.
  assert (E : lt x 0 = false) by (apply lt_false_iff; exact Hx).
  rewrite E. set (n := scaled 2 x).
  exists (n / 100)%N, ((n mod 100) / 10)%N, ((n mod 100) mod 10)%N.
  assert (Hm : (n mod 100 < 100)%N) by (apply N.mod_lt; discriminate).
  repeat split.
  - apply N.Div0.div_lt_upper_bound. exact Hm.
  - apply N.mod_lt. discriminate.
  - unfold fixed_text. change (10 ^ N.of_nat 2)%N with 100%N.
    rewrite (pad_left_2 _ Hm). reflexivity.
  - replace (100 * (n / 100) + 10 * (n mod 100 / 10) + (n mod 100) mod 10)%N
      with n.
    + apply scaled_2_near. exact Hx.
    + rewrite <- N.add_assoc.
      rewrite <- (N.div_mod (n mod 100) 10) by discriminate.
      apply N.div_mod. discriminate.
Qed.

(** ** The result of [predictStatic] *)

Lemma shapValues_entries (baselines : Table) (inputs : NIRFInputs) :
  shapValues baselines inputs =
  map (fun k => (Key.name k, attribution baselines inputs k)) keys_of_WEIGHTS.
Proof. reflexivity. Qed.

Lemma bestFeat_TLR : bestFeat = Fulfilled "TLR"%string.
Proof. vm_compute. reflexivity. Qed.

Lemma logicA_filter (shap : Dict) (recs : list string) :
  logicA shap recs = recs ++ map observe (filter negative (sortedShap shap)).
Proof.
  unfold logicA. generalize (sortedShap shap) as l. intro l. revert recs.
  induction l as [| [feat val] l IH]; intro recs; cbn [fold_left filter map].
  - symmetry. apply app_nil_r.
  - unfold negative at 1. cbn [snd].
    destruct (lt val 0); rewrite IH; [| reflexivity].
    unfold push. rewrite <- app_assoc. reflexivity.
Qed.

Lemma topImportance_fulfilled (baselines : Table) (inputs : NIRFInputs) :
  exists entry rest,
    sort (fun a b => Math_abs (snd b) - Math_abs (snd a))
      (Object_entries (shapValues baselines inputs)) = entry :: rest /\
    topImportance (shapValues baselines inputs) = Fulfilled (fst entry).
Proof.
  unfold topImportance. apply first_key_sort.
  rewrite shapValues_entries. discriminate.
Qed.

(** The promise is fulfilled, with the record the last statement of the
    function builds. *)
Lemma predictWith_fulfilled (baselines : Table) (inputs : NIRFInputs) :
  exists top : string,
    topImportance (shapValues baselines inputs) = Fulfilled top /\
    predictWith baselines inputs =
    Fulfilled {|
      predicted_score := score inputs;
      rank_range_min := rankMin (estimatedRank (score inputs));
      rank_range_max := rankMax (estimatedRank (score inputs));
      shap_values := shapValues baselines inputs;
      recommendations :=
        firstn 5
          (map observe (filter negative (sortedShap (shapValues baselines inputs)))
             ++ [recommendB "TLR"; recommendC top])
    |}.
Proof.
  destruct (topImportance_fulfilled baselines inputs) as (entry & rest & _ & Htop).
  exists (fst entry). split; [exact Htop |].
  unfold predictWith. rewrite bestFeat_TLR, Htop. cbn [bind].
  rewrite logicA_filter. unfold slice0, push. cbn [app].
  rewrite <- app_assoc. reflexivity.
Qed.

(** The same, field by field. *)
Lemma predictWith_fields (baselines : Table) (inputs : NIRFInputs) :
  exists (result : PredictionResult) (top : string),
    predictWith baselines inputs = Fulfilled result /\
    topImportance (shapValues baselines inputs) = Fulfilled top /\
    predicted_score result = score inputs /\
    rank_range_min result = rankMin (estimatedRank (score inputs)) /\
    rank_range_max result = rankMax (estimatedRank (score inputs)) /\
    shap_values result = shapValues baselines inputs /\
    recommendations result =
      firstn 5
        (map observe (filter negative (sortedShap (shapValues baselines inputs)))
           ++ [recommendB "TLR"; recommendC top]).
Proof.
  destruct (predictWith_fulfilled baselines inputs) as (top & Htop & Hres).
  eexists. exists top. split; [exact Hres |].
  split; [exact Htop |]. repeat split.
Qed.

Lemma weighted_sum_eq (inputs : NIRFInputs) :
  weighted_sum inputs ==
  TLR inputs * 0.35 + RPC inputs * 0.30 + GO inputs * 0.15 +
  OI inputs * 0.10 + PR inputs * 0.10.
Proof. unfold weighted_sum. cbn. ring. Qed.

Lemma score_range (inputs : NIRFInputs) : 0 <= score inputs <= 100.
Proof.
  unfold score. split.
  - apply Q.min_glb; [lra | apply Q.le_max_l].
  - apply Q.le_min_l.
Qed.

Lemma inject_Z_le (x y : Z) : (x <= y)%Z -> inject_Z x <= inject_Z y.
Proof. intro H. rewrite <- Zle_Qle. exact H. Qed.

Lemma Qfloor_lt (x : Q) (z : Z) : x < inject_Z z -> (Qfloor x < z)%Z.
Proof.
  intro H. apply Z.lt_nge. intro Hle.
  pose proof (Qfloor_le x) as Hx.
  pose proof (inject_Z_le _ _ Hle) as Hz. lra.
Qed.

Lemma Qfloor_ge (x : Q) (z : Z) : inject_Z z <= x -> (z <= Qfloor x)%Z.
Proof. intro H. rewrite <- (Qfloor_Z z). apply Qfloor_resp_le. exact H. Qed.

Lemma rankMargin_ge_5 (r : Z) : (5 <= rankMargin r)%Z.
Proof. unfold rankMargin. apply Z.le_max_l. Qed.

Lemma rankMargin_small (r : Z) : (r <= 41)%Z -> rankMargin r = 5%Z.
Proof.
  intro Hr. unfold rankMargin, Math_floor. apply Z.max_l.
  apply Z.lt_succ_r, Qfloor_lt.
  pose proof (inject_Z_le r 41 Hr) as H.
  change (inject_Z (Z.succ 5)) with 6. change (inject_Z 41) with 41 in H. lra.
Qed.

Lemma rankMargin_large (r : Z) :
  (42 <= r)%Z -> rankMargin r = Math_floor (inject_Z r * 0.12).
Proof.
  intro Hr. unfold rankMargin, Math_floor. apply Z.max_r.
  apply Qfloor_ge. pose proof (inject_Z_le 42 r Hr) as H.
  change (inject_Z 42) with 42 in H. change (inject_Z 5) with 5. lra.
Qed.

Lemma rankMargin_lt (r : Z) : (6 <= r)%Z -> (rankMargin r < r)%Z.
Proof.
  intro Hr. unfold rankMargin, Math_floor. apply Z.max_lub_lt; [lia |].
  apply Qfloor_lt. pose proof (inject_Z_le 6 r Hr) as H.
  change (inject_Z 6) with 6 in H. lra.
Qed.

Lemma estimatedRank_ge_1 (s : Q) : (1 <= estimatedRank s)%Z.
Proof. unfold estimatedRank. apply Z.le_max_l. Qed.

(** ** The score *)



(** ** The rank range *)





(** ** The attribution *)



(** ** Totality *)

(** C8: [predictStatic] fulfils its promise on every profile, negative
    and above-100 values included; both arrays whose [[0][0]] is read
    have five entries, so neither read throws. *)
Theorem predictStatic_total (inputs : NIRFInputs) :
  (exists result, predictStatic inputs = Fulfilled result) /\
  length (sort (fun a b => snd b - snd a) (Object_entries impacts)) = 5%nat /\
  length (sort (fun a b => Math_abs (snd b) - Math_abs (snd a))
            (Object_entries (shapValues BASELINES inputs))) = 5%nat /\
  (exists feat, bestFeat = Fulfilled feat) /\
  (exists feat, topImportance (shapValues BASELINES inputs) = Fulfilled feat).
Proof.
  destruct (predictWith_fields BASELINES inputs) as (result & top & Hres & Htop & _).
  split; [exists result; exact Hres |].
  split; [rewrite sort_length; reflexivity |].
  split; [rewrite sort_length, shapValues_entries; reflexivity |].
  split; [exists "TLR"%string; exact bestFeat_TLR | exists top; exact Htop].
Qed.

(** ** The recommendations *)

Lemma filter_Permutation {A : Type} (f : A -> bool) (l l' : list A) :
  Permutation l l' -> Permutation (filter f l) (filter f l').
Proof.
  induction 1 as [| x l l' _ IH | x y l | l l' l'' _ IH1 _ IH2]; cbn [filter].
  - apply perm_nil.
  - destruct (f x); [apply perm_skip |]; exact IH.
  - destruct (f x), (f y); try apply Permutation_refl. apply perm_swap.
  - eapply Permutation_trans; eassumption.
Qed.

(** C9: the gains [10 * weight] do not mention the inputs, and the weight
    of TLR is strictly the largest; so Logic B picks TLR, and on every
    profile the string it pushes, right after the observations, names
    TLR. *)
Theorem highest_roi_is_TLR :
  Object_entries impacts =
    map (fun k => (Key.name k, 10 * WEIGHTS k)) keys_of_WEIGHTS /\
  (forall k, k <> Key.TLR -> WEIGHTS k < WEIGHTS Key.TLR) /\
  bestFeat = Fulfilled "TLR"%string /\
  forall inputs : NIRFInputs,
    exists result top,
      predictStatic inputs = Fulfilled result /\
      recommendations result =
        slice0 5
          (logicA (shap_values result) [] ++
           [ ("ML Recommendation: Improvements in " ++ "TLR" ++
              " will yield the highest score boost based on model weights.")%string;
             recommendC top ]).
Proof.
  split; [reflexivity |].
  split; [intros k Hk; destruct k; try contradiction; reflexivity |].
  split; [exact bestFeat_TLR |].
  intro inputs.
  destruct (predictWith_fields BASELINES inputs)
    as (result & top & Hres & _ & _ & _ & _ & Hshap & Hrecs).
  exists result, top. split; [exact Hres |].
  rewrite Hrecs, Hshap, logicA_filter. reflexivity.
Qed.

(** C10: the list of recommendations has between 2 and 5 entries, and so
    is never empty: the number of observations plus two, cut at 5. *)
Theorem recommendations_length (inputs : NIRFInputs) :
  exists result,
    predictStatic inputs = Fulfilled result /\
    length (recommendations result) =
      Nat.min 5 (length (filter negative (Object_entries (shap_values result))) + 2) /\
    (2 <= length (recommendations result) <= 5)%nat /\
    recommendations result <> [].
Proof.
  destruct (predictWith_fields BASELINES inputs)
    as (result & top & Hres & _ & _ & _ & _ & Hshap & Hrecs).
  exists result. split; [exact Hres |].
  assert (Hlen : length (recommendations result) =
                 Nat.min 5 (length (filter negative (Object_entries (shap_values result))) + 2)).
  { rewrite Hrecs, Hshap, length_firstn, length_app, length_map.
    unfold sortedShap.
    rewrite (Permutation_length
               (filter_Permutation negative _ _
                  (Permutation_sym (sort_Permutation _ _)))).
    reflexivity. }
  split; [exact Hlen |].
  split; [lia |].
  intro Hnil. rewrite Hnil in Hlen. cbn [length] in Hlen. lia.
Qed.

Lemma filter_StronglySorted {A : Type} (R : A -> A -> Prop) (f : A -> bool)
    (l : list A) :
  StronglySorted R l -> StronglySorted R (filter f l).
Proof.
  induction 1 as [| a l Hs IH Ha]; cbn [filter]; [constructor |].
  destruct (f a); [| exact IH].
  constructor; [exact IH |].
  apply Forall_forall. intros x Hx. apply filter_In in Hx.
  rewrite Forall_forall in Ha. apply Ha, Hx.
Qed.

Lemma sortedShap_ascending (shap : Dict) :
  StronglySorted (fun a b => snd a <= snd b) (sortedShap shap).
Proof.
  unfold sortedShap.
  apply (sort_ascending (fun a b => snd a - snd b) snd).
  intros a b. reflexivity.
Qed.

(** The head of the array sorted for Logic C has the largest magnitude. *)
Lemma topImportance_largest (shap : Dict) (entry : string * Q)
    (rest : list (string * Q)) :
  sort (fun a b => Math_abs (snd b) - Math_abs (snd a)) (Object_entries shap)
    = entry :: rest ->
  In entry shap /\ forall e, In e shap -> Qabs (snd e) <= Qabs (snd entry).
Proof.
  intro Hsort.
  pose proof (sort_Permutation
                (fun a b => Math_abs (snd b) - Math_abs (snd a))
                (Object_entries shap)) as Hperm.
  pose proof (sort_ascending
                (fun a b => Math_abs (snd b) - Math_abs (snd a))
                (fun e => - Qabs (snd e))
                (fun a b => ltac:(unfold Math_abs; ring))
                (Object_entries shap)) as Hsorted.
  rewrite Hsort in Hperm, Hsorted. unfold Object_entries in Hperm.
  split.
  - eapply Permutation_in; [apply Permutation_sym, Hperm | left; reflexivity].
  - intros e He. apply (Permutation_in _ Hperm) in He.
    destruct He as [<- | He]; [apply Qle_refl |].
    inversion Hsorted as [| ? ? _ Hhead]; subst.
    rewrite Forall_forall in Hhead. specialize (Hhead e He).
    unfold ascending in Hhead. lra.
Qed.


(** ** Determinism *)

Lemma score_same (a b : NIRFInputs) : same_inputs a b -> score a == score b.
Proof.
  intros (H1 & H2 & H3 & H4 & H5). unfold score.
  rewrite !weighted_sum_eq, H1, H2, H3, H4, H5. reflexivity.
Qed.

Lemma estimatedRank_same (s s' : Q) : s == s' -> estimatedRank s = estimatedRank s'.
Proof.
  intro H. unfold estimatedRank, Math_round, normalized.
  f_equal. apply Qfloor_comp. rewrite H. reflexivity.
Qed.

Lemma shapValues_same (baselines : Table) (a b : NIRFInputs) :
  same_inputs a b ->
  Forall2 same_entry (shapValues baselines a) (shapValues baselines b).
Proof.
  intros (H1 & H2 & H3 & H4 & H5). rewrite !shapValues_entries.
  unfold keys_of_WEIGHTS, attribution. cbn [map prop].
  repeat constructor; cbn [fst snd];
    first [rewrite H1 | rewrite H2 | rewrite H3 | rewrite H4 | rewrite H5];
    reflexivity.
Qed.

Section SortSame.
Variable compareFn : string * Q -> string * Q -> Q.
Hypothesis compareFn_same : forall x x' y y',
    same_entry x x' -> same_entry y y' -> compareFn x y == compareFn x' y'.

Lemma insert_same (a a' : string * Q) (l l' : list (string * Q)) :
  same_entry a a' -> Forall2 same_entry l l' ->
  Forall2 same_entry (insert compareFn a l) (insert compareFn a' l').
Proof.
  intros Ha Hl. induction Hl as [| b b' l l' Hb Hl IH]; cbn [insert].
  - constructor; [exact Ha | constructor].
  - rewrite (compareFn_same a a' b b' Ha Hb).
    destruct (lt 0 (compareFn a' b')).
    + constructor; [exact Hb | exact IH].
    + constructor; [exact Ha |]. constructor; [exact Hb | exact Hl].
Qed.

Lemma sort_same (l l' : list (string * Q)) :
  Forall2 same_entry l l' ->
  Forall2 same_entry (sort compareFn l) (sort compareFn l').
Proof.
  induction 1 as [| a a' l l' Ha Hl IH]; cbn [sort fold_right].
  - constructor.
  - apply insert_same; [exact Ha | exact IH].
Qed.
End SortSame.

Lemma toFixed_same (digits : nat) (x x' : Q) :
  x == x' -> toFixed digits x = toFixed digits x'.
Proof.
  intro H. unfold toFixed, scaled.
  rewrite (lt_Proper x x' H 0 0 (Qeq_refl 0)).
  assert (Hpos : Qfloor (x * inject_Z (10 ^ Z.of_nat digits) + (1 # 2)) =
                 Qfloor (x' * inject_Z (10 ^ Z.of_nat digits) + (1 # 2))).
  { apply Qfloor_comp. rewrite H. reflexivity. }
  assert (Hneg : Qfloor (- x * inject_Z (10 ^ Z.of_nat digits) + (1 # 2)) =
                 Qfloor (- x' * inject_Z (10 ^ Z.of_nat digits) + (1 # 2))).
  { apply Qfloor_comp. rewrite H. reflexivity. }
  rewrite Hpos, Hneg. reflexivity.
Qed.

Lemma observe_same (x x' : string * Q) : same_entry x x' -> observe x = observe x'.
Proof.
  intros [Hk Hv]. unfold observe, observation, Math_abs.
  rewrite Hk. rewrite (toFixed_same 2 (Qabs (snd x)) (Qabs (snd x'))).
  - reflexivity.
  - rewrite Hv. reflexivity.
Qed.

Lemma deficits_same (l l' : list (string * Q)) :
  Forall2 same_entry l l' ->
  map observe (filter negative l) = map observe (filter negative l').
Proof.
  induction 1 as [| x x' l l' Hx Hl IH]; cbn [filter]; [reflexivity |].
  assert (E : negative x = negative x').
  { unfold negative. apply lt_Proper; [apply Hx | reflexivity]. }
  rewrite E. destruct (negative x'); [| exact IH].
  cbn [map]. rewrite IH, (observe_same x x' Hx). reflexivity.
Qed.

Lemma first_key_same (l l' : list (string * Q)) :
  Forall2 same_entry l l' -> first_key l = first_key l'.
Proof.
  intro H. destruct H as [| x x' l l' [Hk _] _]; [reflexivity |].
  unfold first_key. cbn [nth_error]. rewrite Hk. reflexivity.
Qed.

Lemma topImportance_same (shap shap' : Dict) :
  Forall2 same_entry shap shap' -> topImportance shap = topImportance shap'.
Proof.
  intro H. unfold topImportance, Object_entries.
  apply first_key_same, sort_same; [| exact H].
  intros x x' y y' [_ Hx] [_ Hy]. unfold Math_abs. rewrite Hx, Hy. reflexivity.
Qed.

Lemma sortedShap_same (shap shap' : Dict) :
  Forall2 same_entry shap shap' ->
  Forall2 same_entry (sortedShap shap) (sortedShap shap').
Proof.
  intro H. unfold sortedShap, Object_entries.
  apply sort_same; [| exact H].
  intros x x' y y' [_ Hx] [_ Hy]. rewrite Hx, Hy. reflexivity.
Qed.



(** ** The engine on the profiles the specification works out *)

Example recommendations_form_defaults :
  exists result,
    predictStatic form_defaults = Fulfilled result /\
    (exists pr, get (shap_values result) "PR" = Some pr /\ pr == -3) /\
    (exists rpc, get (shap_values result) "RPC" = Some rpc /\ rpc == - (9 # 4)) /\
    rank_range_min result = 487%Z /\
    rank_range_max result = 619%Z /\
    recommendations result =
      [ "AI Observation: PR is currently below the benchmark, detracting 3.00 pts from your score.";
        "AI Observation: RPC is currently below the benchmark, detracting 2.25 pts from your score.";
        "AI Observation: TLR is currently below the benchmark, detracting 0.88 pts from your score.";
        "AI Observation: OI is currently below the benchmark, detracting 0.25 pts from your score.";
        "ML Recommendation: Improvements in TLR will yield the highest score boost based on model weights."
      ]%string.
Proof.
  eexists. split; [vm_compute; reflexivity |].
  split; [eexists; split; vm_compute; reflexivity |].
  split; [eexists; split; vm_compute; reflexivity |].
  repeat split; vm_compute; reflexivity.
Qed.

(** With five deficits the cut at 5 leaves the observations alone. *)
Example recommendations_all_zero :
  exists result,
    predictStatic (uniform 0) = Fulfilled result /\
    predicted_score result == 2.5 /\
    rank_range_min result = 1086%Z /\
    rank_range_max result = 1380%Z /\
    recommendations result =
      [ "AI Observation: TLR is currently below the benchmark, detracting 21.88 pts from your score.";
        "AI Observation: RPC is currently below the benchmark, detracting 14.25 pts from your score.";
        "AI Observation: GO is currently below the benchmark, detracting 10.35 pts from your score.";
        "AI Observation: OI is currently below the benchmark, detracting 5.75 pts from your score.";
        "AI Observation: PR is currently below the benchmark, detracting 5.00 pts from your score."
      ]%string.
Proof.
  eexists. split; [vm_compute; reflexivity |].
  repeat split; vm_compute; reflexivity.
Qed.

Example recommendations_all_hundred :
  exists result,
    predictStatic (uniform 100) = Fulfilled result /\
    predicted_score result == 100 /\
    rank_range_min result = 1%Z /\
    rank_range_max result = 6%Z /\
    recommendations result =
      [ "ML Recommendation: Improvements in TLR will yield the highest score boost based on model weights.";
        "Critical Area: RPC currently has the most significant impact on your profile variance."
      ]%string.
Proof.
  eexists. split; [vm_compute; reflexivity |].
  repeat split; vm_compute; reflexivity.
Qed.

(** Values below 0 and above 100 go through the same formulas. *)
Example recommendations_out_of_range :
  exists result,
    predictStatic {| TLR := -50; RPC := 250; GO := 101; OI := -0.5; PR := 1000 |}
      = Fulfilled result /\
    predicted_score result == 100 /\
    rank_range_min result = 1%Z /\
    rank_range_max result = 6%Z /\
    recommendations result =
      [ "AI Observation: TLR is currently below the benchmark, detracting 39.38 pts from your score.";
        "AI Observation: OI is currently below the benchmark, detracting 5.80 pts from your score.";
        "ML Recommendation: Improvements in TLR will yield the highest score boost based on model weights.";
        "Critical Area: PR currently has the most significant impact on your profile variance."
      ]%string.
Proof.
  eexists. split; [vm_compute; reflexivity |].
  repeat split; vm_compute; reflexivity.
Qed.

(** ** More on the score and the rank range *)

Lemma clamp_le (x y : Q) : x <= y -> clamp x <= clamp y.
Proof.
  intro H. unfold clamp.
  apply Q.min_le_compat_l, Q.max_le_compat_l. exact H.
Qed.

Lemma score_clamp (inputs : NIRFInputs) :
  score inputs = clamp (weighted_sum inputs + 2.5).
Proof. reflexivity. Qed.

Lemma weighted_sum_le (a b : NIRFInputs) :
  inputs_le a b -> weighted_sum a <= weighted_sum b.
Proof.
  intro H. rewrite !weighted_sum_eq.
  pose proof (H Key.TLR) as H1. pose proof (H Key.RPC) as H2.
  pose proof (H Key.GO) as H3. pose proof (H Key.OI) as H4.
  pose proof (H Key.PR) as H5. cbn [prop] in *. lra.
Qed.

Lemma normalized_eq (s : Q) : normalized s == (s - 20) * (1 # 75).
Proof.
  unfold normalized, minExpected, maxExpected, Qdiv.
  setoid_replace (/ (95 - 20)) with (1 # 75) by reflexivity. reflexivity.
Qed.

Lemma estimatedRank_antitone (s s' : Q) :
  s <= s' -> (estimatedRank s' <= estimatedRank s)%Z.
Proof.
  intro H. unfold estimatedRank, Math_round, totalSamples.
  apply Z.max_le_compat_l, Qfloor_resp_le.
  rewrite !normalized_eq. lra.
Qed.

Lemma rankMargin_step (r r' : Z) :
  (r <= r')%Z -> (rankMargin r <= rankMargin r' <= rankMargin r + (r' - r))%Z.
Proof.
  intro H. unfold rankMargin, Math_floor.
  pose proof (inject_Z_le r r' H) as Hq.
  assert (Hlo : (Qfloor (inject_Z r * 0.12) <= Qfloor (inject_Z r' * 0.12))%Z).
  { apply Qfloor_resp_le. lra. }
  assert (Hhi : (Qfloor (inject_Z r' * 0.12) <
                 Qfloor (inject_Z r * 0.12) + (r' - r) + 1)%Z).
  { apply Qfloor_lt.
    pose proof (Qlt_floor (inject_Z r * 0.12)) as Hf.
    rewrite !inject_Z_plus in *. unfold Z.sub. rewrite inject_Z_plus, inject_Z_opp.
    change (inject_Z 1) with 1 in *.
    set (f := inject_Z (Qfloor (inject_Z r * 0.12))) in *. lra. }
  lia.
Qed.

Lemma rankMax_monotone (r r' : Z) : (r <= r')%Z -> (rankMax r <= rankMax r')%Z.
Proof. intro H. pose proof (rankMargin_step r r' H). unfold rankMax. lia. Qed.

Lemma rankMin_monotone (r r' : Z) : (r <= r')%Z -> (rankMin r <= rankMin r')%Z.
Proof. intro H. pose proof (rankMargin_step r r' H). unfold rankMin. lia. Qed.

(** X1: raising metrics never lowers the score and never moves either
    end of the rank range to a worse (larger) rank. *)
Theorem better_inputs_better_result (a b : NIRFInputs) :
  inputs_le a b ->
  exists ra rb,
    predictStatic a = Fulfilled ra /\
    predictStatic b = Fulfilled rb /\
    predicted_score ra <= predicted_score rb /\
    (rank_range_min rb <= rank_range_min ra)%Z /\
    (rank_range_max rb <= rank_range_max ra)%Z.
Proof.
  intro Hab.
  destruct (predictWith_fields BASELINES a)
    as (ra & _ & Hra & _ & Hsa & Hmina & Hmaxa & _).
  destruct (predictWith_fields BASELINES b)
    as (rb & _ & Hrb & _ & Hsb & Hminb & Hmaxb & _).
  exists ra, rb. split; [exact Hra |]. split; [exact Hrb |].
  rewrite Hsa, Hsb, Hmina, Hminb, Hmaxa, Hmaxb.
  assert (Hs : score a <= score b).
  { rewrite !score_clamp. apply clamp_le.
    pose proof (weighted_sum_le a b Hab). lra. }
  pose proof (estimatedRank_antitone _ _ Hs) as Hr.
  split; [exact Hs |].
  split; [apply rankMin_monotone | apply rankMax_monotone]; exact Hr.
Qed.

Lemma better_inputs_better_result_witness :
  exists ra rb,
    predictStatic form_defaults = Fulfilled ra /\
    predictStatic (uniform 70) = Fulfilled rb /\
    predicted_score ra <= predicted_score rb /\
    (rank_range_min rb <= rank_range_min ra)%Z /\
    (rank_range_max rb <= rank_range_max ra)%Z.
Proof.
  apply (better_inputs_better_result form_defaults (uniform 70)).
  intro k. destruct k; vm_compute; discriminate.
Defined.

(** X2: whatever the profile, the estimated rank is at most 1267 and the
    rank range lies inside 1..1419; its lower end is at most 1115 and its
    upper end at least 6. *)
Theorem rank_range_bounds (inputs : NIRFInputs) :
  exists result,
    predictStatic inputs = Fulfilled result /\
    (1 <= estimatedRank (predicted_score result) <= 1267)%Z /\
    (1 <= rank_range_min result <= 1115)%Z /\
    (6 <= rank_range_max result <= 1419)%Z.
Proof.
  destruct (predictWith_fields BASELINES inputs)
    as (result & _ & Hres & _ & Hs & Hmin & Hmax & _).
  exists result. split; [exact Hres |]. rewrite Hs, Hmin, Hmax.
  pose proof (estimatedRank_ge_1 (score inputs)) as Hlo.
  assert (Hhi : (estimatedRank (score inputs) <= 1267)%Z).
  { change 1267%Z with (estimatedRank 0).
    apply estimatedRank_antitone, score_range. }
  pose proof (rankMin_monotone _ _ Hhi) as Hmin'.
  pose proof (rankMax_monotone _ _ Hhi) as Hmax'.
  pose proof (rankMax_monotone _ _ Hlo) as Hmax''.
  assert (E1 : rankMin 1267 = 1115%Z) by (vm_compute; reflexivity).
  assert (E2 : rankMax 1267 = 1419%Z) by (vm_compute; reflexivity).
  assert (E3 : rankMax 1 = 6%Z) by (vm_compute; reflexivity).
  rewrite E1 in Hmin'. rewrite E2 in Hmax'. rewrite E3 in Hmax''.
  assert (1 <= rankMin (estimatedRank (score inputs)))%Z
    by (unfold rankMin; apply Z.le_max_l).
  lia.
Qed.

Lemma score_within (lo hi : Q) (inputs : NIRFInputs) :
  within lo hi inputs ->
  clamp (lo + 2.5) <= score inputs <= clamp (hi + 2.5).
Proof.
  intro H. rewrite score_clamp.
  assert (Hsum : lo <= weighted_sum inputs <= hi).
  { rewrite weighted_sum_eq.
    pose proof (H Key.TLR) as H1. pose proof (H Key.RPC) as H2.
    pose proof (H Key.GO) as H3. pose proof (H Key.OI) as H4.
    pose proof (H Key.PR) as H5. cbn [prop] in *. lra. }
  split; apply clamp_le; lra.
Qed.



(** X4: on a profile with every metric in [0, 100] the score is at least
    2.5, the estimated rank at most 1233 and the rank range inside
    1..1380. *)
Theorem in_range_profile_bounds (inputs : NIRFInputs) :
  within 0 100 inputs ->
  exists result,
    predictStatic inputs = Fulfilled result /\
    2.5 <= predicted_score result <= 100 /\
    (estimatedRank (predicted_score result) <= 1233)%Z /\
    (1 <= rank_range_min result)%Z /\
    (rank_range_max result <= 1380)%Z.
Proof.
  intro H.
  destruct (score_within 0 100 inputs H) as [Hlo _].
  destruct (predictWith_fields BASELINES inputs)
    as (result & _ & Hres & _ & Hs & Hmin & Hmax & _).
  exists result. split; [exact Hres |].
  rewrite Hs, Hmin, Hmax.
  assert (Hlo' : 2.5 <= score inputs).
  { eapply Qle_trans; [| exact Hlo]. vm_compute. discriminate. }
  pose proof (estimatedRank_antitone _ _ Hlo') as Hr.
  assert (E : estimatedRank 2.5 = 1233%Z) by (vm_compute; reflexivity).
  rewrite E in Hr.
  pose proof (rankMax_monotone _ _ Hr) as Hm.
  assert (E' : rankMax 1233 = 1380%Z) by (vm_compute; reflexivity).
  rewrite E' in Hm.
  split; [split; [exact Hlo' | apply score_range] |].
  split; [exact Hr |]. split; [unfold rankMin; apply Z.le_max_l | exact Hm].
Qed.

Lemma in_range_profile_bounds_witness :
  exists result,
    predictStatic (uniform 0) = Fulfilled result /\
    2.5 <= predicted_score result <= 100 /\
    (estimatedRank (predicted_score result) <= 1233)%Z /\
    (1 <= rank_range_min result)%Z /\
    (rank_range_max result <= 1380)%Z.
Proof.
  apply (in_range_profile_bounds (uniform 0)).
  intro k. destruct k; split; vm_compute; discriminate.
Defined.






(** ** More on the recommendations *)

Lemma filter_map_swap_keys {A B : Type} (f : A -> B) (p : B -> bool) (l : list A) :
  filter p (map f l) = map f (filter (fun a => p (f a)) l).
Proof.
  induction l as [| a l IH]; cbn [map filter]; [reflexivity |].
  destruct (p (f a)); cbn [map]; rewrite IH; reflexivity.
Qed.

Lemma weight_positive (k : Key.t) : 0 < WEIGHTS k.
Proof. destruct k; reflexivity. Qed.

Lemma attribution_negative (inputs : NIRFInputs) (k : Key.t) :
  attribution BASELINES inputs k < 0 <-> prop inputs k < BASELINES k.
Proof.
  unfold attribution. destruct k; cbn [WEIGHTS]; split; intro H; lra.
Qed.

Lemma negative_entry (inputs : NIRFInputs) (k : Key.t) :
  negative (Key.name k, attribution BASELINES inputs k) =
  lt (prop inputs k) (BASELINES k).
Proof.
  unfold negative. cbn [snd].
  destruct (lt (prop inputs k) (BASELINES k)) eqn:E.
  - apply lt_true_iff, attribution_negative, lt_true_iff, E.
  - apply lt_false_iff. apply lt_false_iff in E.
    apply Qnot_lt_le. intro H. apply attribution_negative in H. lra.
Qed.

Lemma deficits_below_baseline (inputs : NIRFInputs) :
  filter negative (Object_entries (shapValues BASELINES inputs)) =
  map (fun k => (Key.name k, attribution BASELINES inputs k)) (below_baseline inputs).
Proof.
  rewrite shapValues_entries. unfold Object_entries, below_baseline.
  rewrite filter_map_swap_keys. f_equal.
  apply filter_ext. intro k. apply negative_entry.
Qed.

Lemma deficits_count (inputs : NIRFInputs) :
  length (filter negative (sortedShap (shapValues BASELINES inputs))) =
  length (below_baseline inputs).
Proof.
  unfold sortedShap.
  rewrite (Permutation_length
             (filter_Permutation negative _ _
                (Permutation_sym (sort_Permutation _ _)))).
  rewrite deficits_below_baseline. apply length_map.
Qed.

Lemma below_baseline_count (inputs : NIRFInputs) :
  (length (below_baseline inputs) <= 5)%nat.
Proof. unfold below_baseline. apply (filter_length_le _ keys_of_WEIGHTS). Qed.

Lemma firstn_In {A : Type} (n : nat) (l : list A) (x : A) :
  In x (firstn n l) -> In x l.
Proof.
  revert l. induction n as [| n IH]; intros [| a l] H; cbn [firstn] in H;
    try contradiction.
  destruct H as [-> | H]; [left; reflexivity | right; apply IH, H].
Qed.

Lemma prefix_append (a b : string) : prefix a (a ++ b) = true.
Proof.
  induction a as [| c a IH]; cbn [append prefix].
  - destruct b; reflexivity.
  - destruct (ascii_dec c c) as [_ | Hne]; [exact IH | contradiction].
Qed.

Lemma observation_prefix (feat : string) (val : Q) :
  prefix "AI Observation: " (observation feat val) = true.
Proof. unfold observation. apply prefix_append. Qed.

Lemma observation_names_one_metric (k k' : Key.t) (val val' : Q) :
  observation (Key.name k) val = observation (Key.name k') val' -> k = k'.
Proof.
  unfold observation. intro H.
  destruct k, k'; try reflexivity; cbn [Key.name append] in H; discriminate H.
Qed.

Lemma observation_names_only_deficits (inputs : NIRFInputs) (k : Key.t) :
  exists result,
    predictStatic inputs = Fulfilled result /\
    ((exists val, In (observation (Key.name k) val) (recommendations result))
     -> prop inputs k < BASELINES k) /\
    shap_values result = shapValues BASELINES inputs.
Proof.
  destruct (predictWith_fields BASELINES inputs)
    as (result & top & Hres & _ & _ & _ & _ & Hshap & Hrecs).
  exists result. split; [exact Hres |]. split; [| exact Hshap].
  rewrite Hrecs. intros [val Hin]. apply firstn_In in Hin.
  apply in_app_or in Hin. destruct Hin as [Hin | Hin].
  - apply in_map_iff in Hin. destruct Hin as ([feat v] & Heq & Hin).
    apply filter_In in Hin. destruct Hin as [Hin Hneg].
    unfold sortedShap in Hin.
    apply (Permutation_in _ (Permutation_sym (sort_Permutation _ _))) in Hin.
    rewrite shapValues_entries in Hin. unfold Object_entries in Hin.
    apply in_map_iff in Hin. destruct Hin as (k' & Hk' & _).
    injection Hk' as <- <-. unfold observe in Heq. cbn [fst snd] in Heq.
    apply observation_names_one_metric in Heq. subst k'.
    rewrite negative_entry in Hneg. apply lt_true_iff. exact Hneg.
  - exfalso. destruct Hin as [Hb | [Hc | []]]; unfold observation in *.
    + unfold recommendB in Hb. cbn [append] in Hb. discriminate Hb.
    + unfold recommendC in Hc. cbn [append] in Hc. discriminate Hc.
Qed.



(** X9: how many strings the cut at 5 leaves depends on the number of
    metrics below their baseline only: every observation is kept; the ML
    recommendation is kept unless all five metrics are below baseline; the
    critical-area string is kept only when at most three are. *)
Theorem closing_strings_by_deficits (inputs : NIRFInputs) :
  exists result observations top,
    predictStatic inputs = Fulfilled result /\
    length observations = length (below_baseline inputs) /\
    Forall (fun s => prefix "AI Observation: " s = true) observations /\
    recommendations result =
      observations ++
      match length (below_baseline inputs) with
      | 5%nat => []
      | 4%nat => [recommendB "TLR"]
      | _ => [recommendB "TLR"; recommendC top]
      end.
Proof.
  destruct (predictWith_fields BASELINES inputs)
    as (result & top & Hres & _ & _ & _ & _ & _ & Hrecs).
  exists result,
    (map observe (filter negative (sortedShap (shapValues BASELINES inputs)))), top.
  split; [exact Hres |].
  pose proof (deficits_count inputs) as Hcount.
  pose proof (below_baseline_count inputs) as Hfive.
  split; [rewrite length_map; exact Hcount |].
  split.
  - apply Forall_forall. intros s Hin. apply in_map_iff in Hin.
    destruct Hin as (entry & <- & _). apply observation_prefix.
  - rewrite Hrecs, firstn_app, firstn_all2 by (rewrite length_map; lia).
    rewrite length_map, Hcount. f_equal.
    destruct (length (below_baseline inputs)) as [| [| [| [| [| [| n]]]]]];
      try reflexivity.
    exfalso. lia.
Qed.

Lemma filter_head_split {A : Type} (p : A -> bool) (l : list A) (e : A)
    (t : list A) :
  filter p l = e :: t ->
  exists l1 l2, l = l1 ++ e :: l2 /\ Forall (fun x => p x = false) l1.
Proof.
  induction l as [| a l IH]; cbn [filter]; intro H; [discriminate |].
  destruct (p a) eqn:E.
  - injection H as -> _. exists [], l. split; [reflexivity | constructor].
  - destruct (IH H) as (l1 & l2 & -> & Hl1).
    exists (a :: l1), l2. split; [reflexivity |].
    constructor; assumption.
Qed.

(** X10: Logic C names the first metric, in declaration order, among
    those whose attribution has the largest magnitude: every metric
    declared before it has a strictly smaller magnitude, every metric
    declared after it a magnitude that is not larger. *)
Theorem critical_area_first_among_largest (inputs : NIRFInputs) :
  exists result before top val after,
    predictStatic inputs = Fulfilled result /\
    topImportance (shap_values result) = Fulfilled top /\
    Object_entries (shap_values result) = before ++ (top, val) :: after /\
    Forall (fun entry => Qabs (snd entry) < Qabs val) before /\
    Forall (fun entry => Qabs (snd entry) <= Qabs val) after.
Proof.
  destruct (predictWith_fields BASELINES inputs)
    as (result & top & Hres & Htop & _ & _ & _ & Hshap & _).
  destruct (topImportance_fulfilled BASELINES inputs)
    as ([top' val] & rest & Hsort & Htop').
  rewrite Htop in Htop'. injection Htop' as ->. cbn [fst] in *.
  pose proof (topImportance_largest _ _ _ Hsort) as [_ Hlargest].
  pose proof (sort_stable
                (fun a b => Math_abs (snd b) - Math_abs (snd a))
                (fun e => - Qabs (snd e))
                (fun a b => ltac:(unfold Math_abs; ring))
                (- Qabs val)
                (Object_entries (shapValues BASELINES inputs))) as Hstable.
  rewrite Hsort in Hstable. cbn [filter snd] in Hstable.
  assert (E : Qeq_bool (- Qabs val) (- Qabs val) = true)
    by (apply Qeq_bool_iff; reflexivity).
  rewrite E in Hstable. symmetry in Hstable.
  destruct (filter_head_split _ _ _ _ Hstable) as (before & after & Hsplit & Hbefore).
  exists result, before, top', val, after.
  split; [exact Hres |]. rewrite Hshap. split; [exact Htop |].
  split; [exact Hsplit |].
  unfold Object_entries in Hsplit.
  split; apply Forall_forall; intros entry Hin.
  - rewrite Forall_forall in Hbefore. specialize (Hbefore entry Hin).
    cbn beta in Hbefore.
    assert (Hle : Qabs (snd entry) <= Qabs val).
    { apply (Hlargest entry). rewrite Hsplit. apply in_or_app. left. exact Hin. }
    apply Qle_lteq in Hle. destruct Hle as [Hlt | Heq]; [exact Hlt |].
    exfalso. apply Qeq_bool_neq in Hbefore. apply Hbefore. rewrite Heq. reflexivity.
  - apply (Hlargest entry). rewrite Hsplit. apply in_or_app. right. right. exact Hin.
Qed.

(** X11: metrics with the same negative attribution are observed in
    declaration order: for every value, the observed entries holding it are
    the entries of [shap_values] holding it, in the same order. *)
Theorem observations_keep_declaration_order (inputs : NIRFInputs) :
  exists result deficits,
    predictStatic inputs = Fulfilled result /\
    logicA (shap_values result) [] = map observe deficits /\
    StronglySorted (fun a b => snd a <= snd b) deficits /\
    forall v : Q,
      valued v deficits =
      valued v (filter negative (Object_entries (shap_values result))).
Proof.
  destruct (predictWith_fields BASELINES inputs)
    as (result & top & Hres & _ & _ & _ & _ & Hshap & _).
  exists result, (filter negative (sortedShap (shapValues BASELINES inputs))).
  split; [exact Hres |]. rewrite Hshap.
  split; [apply logicA_filter |].
  split; [apply filter_StronglySorted, sortedShap_ascending |].
  intro v. unfold valued, sortedShap.
  pose proof (sort_stable (fun a b => snd a - snd b) snd
                (fun a b => Qeq_refl _) v
                (Object_entries (shapValues BASELINES inputs))) as Hstable.
  assert (Hswap : forall l : list (string * Q),
             filter (fun entry => Qeq_bool (snd entry) v) (filter negative l) =
             filter negative (filter (fun entry => Qeq_bool (snd entry) v) l)).
  { induction l as [| a l IH]; [reflexivity |]. cbn [filter].
    destruct (negative a) eqn:En, (Qeq_bool (snd a) v) eqn:Ev; cbn [filter];
      rewrite ?En, ?Ev, IH; reflexivity. }
  rewrite !Hswap, Hstable. reflexivity.
Qed.

(** ** The report *)

Section Includes.
Import Text.

Lemma chars_append (a b : string) : chars (a ++ b) = chars a ++ chars b.
Proof.
  induction a as [| c a IH]; cbn [append chars list_ascii_of_string app].
  - reflexivity.
  - unfold chars in IH. rewrite IH. reflexivity.
Qed.

Lemma prefix_stops (searchString a : string) (h : ascii) (r : string) :
  ~ In h (chars searchString) ->
  prefix searchString (a ++ String h r) = prefix searchString a.
Proof.
  revert searchString.
  induction a as [| c a IH]; intros [| n rest] Hh; cbn [append prefix];
    try reflexivity.
  - destruct (ascii_dec n h) as [-> | _]; [| reflexivity].
    exfalso. apply Hh. left. reflexivity.
  - destruct (ascii_dec n c) as [_ | _]; [| reflexivity].
    apply IH. intro Hin. apply Hh. right. exact Hin.
Qed.

Lemma includes_skips (searchString t b : string) :
  searchString <> EmptyString ->
  Forall (fun c => ~ In c (chars searchString)) (chars t) ->
  includes (t ++ b) searchString = includes b searchString.
Proof.
  intros Hne Ht. induction t as [| h t IH]; [reflexivity |].
  inversion Ht as [| ? ? Hh Ht']; subst.
  cbn [append includes]. rewrite (IH Ht').
  destruct searchString as [| n rest]; [contradiction |].
  cbn [prefix]. destruct (ascii_dec n h) as [-> | _]; [| reflexivity].
  exfalso. apply Hh. left. reflexivity.
Qed.

(** A search string is found around a text it shares no character with
    only inside what precedes or inside what follows. *)
Lemma includes_around (searchString a t b : string) :
  searchString <> EmptyString ->
  t <> EmptyString ->
  Forall (fun c => ~ In c (chars searchString)) (chars t) ->
  includes (a ++ t ++ b) searchString =
  includes a searchString || includes b searchString.
Proof.
  intros Hne Hte Ht. induction a as [| c a IH].
  - cbn [append includes]. rewrite includes_skips by assumption.
    destruct searchString; [contradiction | reflexivity].
  - cbn [includes]. change (String c a ++ t ++ b)%string
      with (String c (a ++ t ++ b)).
    cbn [includes]. rewrite IH, orb_assoc.
    destruct t as [| h t]; [contradiction |].
    inversion Ht as [| ? ? Hh _]; subst.
    change (String c (a ++ String h t ++ b))
      with (String c a ++ String h (t ++ b))%string.
    rewrite prefix_stops by exact Hh. reflexivity.
Qed.

End Includes.

Lemma append_assoc' (a b c : string) : ((a ++ b) ++ c = a ++ (b ++ c))%string.
Proof.
  induction a as [| x a IH]; cbn [append]; [reflexivity |].
  rewrite IH. reflexivity.
Qed.

Lemma string_of_uint_numeric (d : Decimal.uint) :
  Forall numeric (chars (NilEmpty.string_of_uint d)).
Proof.
  induction d; cbn [NilEmpty.string_of_uint chars list_ascii_of_string];
    constructor; try exact IHd; unfold numeric; cbn; tauto.
Qed.

Lemma digit_numeric (d : N) : (d < 10)%N -> numeric (digit d).
Proof.
  intro H.
  assert (Hcases : In d [0; 1; 2; 3; 4; 5; 6; 7; 8; 9]%N).
  { cbn [In]. lia. }
  cbn [In] in Hcases.
  repeat (destruct Hcases as [<- | Hcases]; [unfold numeric; cbn; tauto |]).
  contradiction.
Qed.

Lemma toFixed_2_numeric (x : Q) :
  0 <= x ->
  toFixed 2 x <> EmptyString /\ Forall numeric (chars (toFixed 2 x)).
Proof.
  intro Hx.
  destruct (toFixed_2_two_decimals x Hx) as (i & d1 & d2 & H1 & H2 & -> & _).
  split.
  - destruct (string_of_N i); discriminate.
  - rewrite !chars_append. apply Forall_app. split.
    + apply string_of_uint_numeric.
    + cbn [chars list_ascii_of_string app].
      constructor; [unfold numeric; cbn; tauto |].
      constructor; [apply digit_numeric, H1 |].
      constructor; [apply digit_numeric, H2 | constructor].
Qed.

Lemma numeric_not_searched (searchString : string) :
  forallb (fun c => negb (existsb (Ascii.eqb c) (chars searchString)))
    (chars "0123456789.") = true ->
  forall t, Forall numeric (chars t) ->
            Forall (fun c => ~ In c (chars searchString)) (chars t).
Proof.
  intros Hcheck t Ht. rewrite forallb_forall in Hcheck.
  eapply Forall_impl; [| exact Ht].
  intros c Hc Hin. specialize (Hcheck c Hc).
  apply negb_true_iff in Hcheck.
  assert (Hex : existsb (Ascii.eqb c) (chars searchString) = true).
  { apply existsb_exists. exists c. split; [exact Hin | apply Ascii.eqb_refl]. }
  rewrite Hex in Hcheck. discriminate.
Qed.

Lemma observation_not_searched (searchString : string) (k : Key.t) (val : Q) :
  searchString <> EmptyString ->
  forallb (fun c => negb (existsb (Ascii.eqb c) (chars searchString)))
    (chars "0123456789.") = true ->
  Text.includes (observation (Key.name k) val) searchString =
  Text.includes
    ("AI Observation: " ++ Key.name k ++
     " is currently below the benchmark, detracting ") searchString
  || Text.includes " pts from your score." searchString.
Proof.
  intros Hne Hcheck. unfold observation.
  destruct (toFixed_2_numeric (Math_abs val) (Qabs_nonneg val)) as [Hte Hnum].
  rewrite <- (append_assoc' (Key.name k)), <- (append_assoc' "AI Observation: ").
  apply (includes_around searchString _ _ _ Hne Hte
           (numeric_not_searched searchString Hcheck _ Hnum)).
Qed.

Lemma observe_box (inputs : NIRFInputs) (entry : string * Q) (i : nat) :
  In entry (shapValues BASELINES inputs) ->
  App.recommendationBox (observe entry) i =
  {| App.active := false; App.icon := App.AlertTriangle;
     App.title := observation_title i; App.text := observe entry |}.
Proof.
  rewrite shapValues_entries. intro Hin. apply in_map_iff in Hin.
  destruct Hin as (k & <- & _). unfold observe. cbn [fst snd].
  unfold App.recommendationBox.
  rewrite (observation_not_searched "ML Recommendation" k)
    by (try discriminate; vm_compute; reflexivity).
  rewrite (observation_not_searched "Critical" k)
    by (try discriminate; vm_compute; reflexivity).
  destruct k; reflexivity.
Qed.

Lemma map_from_app {A B : Type} (f : A -> nat -> B) (i : nat) (l l' : list A) :
  Text.map_from f i (l ++ l') =
  Text.map_from f i l ++ Text.map_from f (i + length l) l'.
Proof.
  revert i. induction l as [| a l IH]; intro i; cbn [app Text.map_from length].
  - rewrite Nat.add_0_r. reflexivity.
  - rewrite IH, Nat.add_succ_r. reflexivity.
Qed.

Lemma map_from_firstn {A B : Type} (f : A -> nat -> B) (n i : nat) (l : list A) :
  Text.map_from f i (firstn n l) = firstn n (Text.map_from f i l).
Proof.
  revert i l. induction n as [| n IH]; intros i [| a l];
    cbn [firstn Text.map_from]; try reflexivity.
  rewrite IH. reflexivity.
Qed.

Lemma map_from_ext {A B : Type} (f g : A -> nat -> B) (i : nat) (l : list A) :
  (forall a j, In a l -> f a j = g a j) ->
  Text.map_from f i l = Text.map_from g i l.
Proof.
  revert i. induction l as [| a l IH]; intros i H; cbn [Text.map_from];
    [reflexivity |].
  rewrite (H a i) by (left; reflexivity).
  rewrite IH by (intros b j Hb; apply H; right; exact Hb). reflexivity.
Qed.

Lemma topImportance_is_metric (inputs : NIRFInputs) (top : string) :
  topImportance (shapValues BASELINES inputs) = Fulfilled top ->
  exists k, top = Key.name k.
Proof.
  intro Htop.
  destruct (topImportance_fulfilled BASELINES inputs)
    as (entry & rest & Hsort & Htop').
  rewrite Htop in Htop'. injection Htop' as ->.
  destruct (topImportance_largest _ _ _ Hsort) as [Hin _].
  rewrite shapValues_entries in Hin. apply in_map_iff in Hin.
  destruct Hin as (k & <- & _). exists k. reflexivity.
Qed.

(** X12: the report gives every string of [predictStatic] the box meant
    for it: the observations come first and are titled "Observation 1",
    "Observation 2", ... with the warning icon; the ML recommendation is
    the one active box, titled "Predicted Highest ROI"; the critical-area
    string is titled "Strategic Focus"; the fallback paragraph is never
    rendered. *)
Theorem report_boxes (inputs : NIRFInputs) :
  exists result observations top,
    predictStatic inputs = Fulfilled result /\
    recommendations result =
      firstn 5 (observations ++ [recommendB "TLR"; recommendC top]) /\
    App.recommendationBoxes (Some result) =
      firstn 5
        (Text.mapi
           (fun rec i =>
              {| App.active := false; App.icon := App.AlertTriangle;
                 App.title := observation_title i; App.text := rec |})
           observations ++
         [ {| App.active := true; App.icon := App.TrendingUp;
              App.title := "Predicted Highest ROI";
              App.text := recommendB "TLR" |};
           {| App.active := false; App.icon := App.ShieldCheck;
              App.title := "Strategic Focus";
              App.text := recommendC top |} ]) /\
    App.showsFallback (Some result) = false.
Proof.
  destruct (predictWith_fields BASELINES inputs)
    as (result & top & Hres & Htop & _ & _ & _ & _ & Hrecs).
  set (deficits := filter negative (sortedShap (shapValues BASELINES inputs))) in *.
  exists result, (map observe deficits), top.
  split; [exact Hres |]. split; [exact Hrecs |]. split.
  - unfold App.recommendationBoxes, Text.mapi. rewrite Hrecs.
    rewrite map_from_firstn, map_from_app. f_equal. f_equal.
    + apply map_from_ext. intros rec j Hin. apply in_map_iff in Hin.
      destruct Hin as (entry & <- & Hin). apply (observe_box inputs).
      unfold deficits in Hin. apply filter_In in Hin. destruct Hin as [Hin _].
      unfold sortedShap in Hin.
      apply (Permutation_in _ (Permutation_sym (sort_Permutation _ _))) in Hin.
      exact Hin.
    + destruct (topImportance_is_metric inputs top Htop) as (k & ->).
      cbn [Text.map_from].
      assert (HB : forall i, App.recommendationBox (recommendB "TLR") i =
                {| App.active := true; App.icon := App.TrendingUp;
                   App.title := "Predicted Highest ROI";
                   App.text := recommendB "TLR" |})
        by (intro i; reflexivity).
      assert (HC : forall i, App.recommendationBox (recommendC (Key.name k)) i =
                {| App.active := false; App.icon := App.ShieldCheck;
                   App.title := "Strategic Focus";
                   App.text := recommendC (Key.name k) |})
        by (intro i; destruct k; reflexivity).
      rewrite HB, HC. reflexivity.
  - unfold App.showsFallback. rewrite Hrecs.
    destruct (firstn 5 (map observe deficits ++ [recommendB "TLR"; recommendC top]))
      eqn:E; [| reflexivity].
    exfalso. apply (f_equal (@length string)) in E.
    rewrite length_firstn, length_app in E. cbn [length] in E. lia.
Qed.

(** ** The impact chart *)

Lemma string_of_uint_digits (d : Decimal.uint) :
  Forall decimal_digit (chars (NilEmpty.string_of_uint d)).
Proof.
  induction d; cbn [NilEmpty.string_of_uint chars list_ascii_of_string];
    constructor; try exact IHd; unfold decimal_digit; cbn; tauto.
Qed.

Lemma digits_string_of_N (i : N) :
  exists c rest, string_of_N i = String c rest /\ Text.digits (string_of_N i) = Some i.
Proof.
  unfold string_of_N.
  pose proof (NilEmpty.usu (N.to_uint i)) as Husu.
  destruct (NilEmpty.string_of_uint (N.to_uint i)) as [| c rest] eqn:E.
  - exfalso. cbn in Husu. injection Husu as Hnil.
    pose proof (DecimalN.Unsigned.of_to i) as Hi. rewrite <- Hnil in Hi.
    cbn in Hi. subst i. discriminate Hnil.
  - exists c, rest. split; [reflexivity |].
    unfold Text.digits. rewrite Husu. cbn [option_map].
    rewrite DecimalN.Unsigned.of_to. reflexivity.
Qed.

Lemma split_point_whole (whole fraction : string) :
  Forall decimal_digit (chars whole) ->
  Text.split_point (whole ++ String "." fraction) = (whole, Some fraction).
Proof.
  induction whole as [| c whole IH]; intro H; cbn [append Text.split_point].
  - reflexivity.
  - inversion H as [| ? ? Hc Hrest]; subst.
    assert (E : Ascii.eqb c "." = false).
    { apply Ascii.eqb_neq. intros ->. unfold decimal_digit in Hc. cbn in Hc.
      repeat (destruct Hc as [Hc | Hc]; [discriminate Hc |]). contradiction. }
    rewrite E, (IH Hrest). reflexivity.
Qed.

Lemma digits_pad_left_2 (k : N) :
  (k < 100)%N ->
  Text.digits (pad_left 2 (string_of_N k)) = Some k /\
  String.length (pad_left 2 (string_of_N k)) = 2%nat.
Proof.
  intro Hk.
  assert (Hall : forallb
            (fun j : nat =>
               let k := N.of_nat j in
               match Text.digits (pad_left 2 (string_of_N k)) with
               | Some m => N.eqb m k
               | None => false
               end && Nat.eqb (String.length (pad_left 2 (string_of_N k))) 2)
            (seq 0 100) = true) by (vm_compute; reflexivity).
  rewrite forallb_forall in Hall. specialize (Hall (N.to_nat k)).
  cbv zeta in Hall. rewrite N2Nat.id in Hall.
  assert (Hin : In (N.to_nat k) (seq 0 100)) by (apply in_seq; lia).
  specialize (Hall Hin). apply andb_true_iff in Hall. destruct Hall as [Hd Hl].
  split; [| apply Nat.eqb_eq, Hl].
  destruct (Text.digits (pad_left 2 (string_of_N k))) as [m |]; [| discriminate].
  apply N.eqb_eq in Hd. subst m. reflexivity.
Qed.

Lemma unsigned_fixed_text (n : N) :
  exists c rest v,
    fixed_text 2 n = String c rest /\
    decimal_digit c /\
    Text.unsigned (fixed_text 2 n) = Some v /\
    v == inject_Z (Z.of_N n) / 100.
Proof.
  unfold fixed_text. change (10 ^ N.of_nat 2)%N with 100%N.
  assert (Hm : (n mod 100 < 100)%N) by (apply N.mod_lt; discriminate).
  destruct (digits_string_of_N (n / 100)) as (c & rest & Hw & Hdw).
  destruct (digits_pad_left_2 _ Hm) as [Hdf Hlen].
  pose proof (string_of_uint_digits (N.to_uint (n / 100))) as Hdigits.
  fold (string_of_N (n / 100)) in Hdigits.
  exists c, (rest ++ "." ++ pad_left 2 (string_of_N (n mod 100)))%string.
  eexists. split; [rewrite Hw; reflexivity |].
  split; [rewrite Hw in Hdigits; inversion Hdigits; assumption |].
  unfold Text.unsigned.
  change ("." ++ pad_left 2 (string_of_N (n mod 100)))%string
    with (String "." (pad_left 2 (string_of_N (n mod 100)))).
  rewrite (split_point_whole _ _ Hdigits), Hdw, Hdf, Hlen.
  split; [reflexivity |].
  change (inject_Z (10 ^ Z.of_nat 2)) with 100.
  rewrite (N.div_mod n 100) at 3 by discriminate.
  rewrite N2Z.inj_add, N2Z.inj_mul, inject_Z_plus, inject_Z_mult.
  change (inject_Z (Z.of_N 100)) with 100. field.
Qed.

Lemma Number_toFixed_2 (x : Q) :
  exists v, Text.Number (toFixed 2 x) = Some v /\ v == hundredths x.
Proof.
  unfold toFixed, hundredths. destruct (lt x 0).
  - destruct (unsigned_fixed_text (scaled 2 (- x))) as (c & rest & v & _ & _ & Hv & Ev).
    exists (- v). split.
    + cbn [append Text.Number]. change (Ascii.eqb "-" "-") with true.
      rewrite Hv. reflexivity.
    + rewrite Ev. reflexivity.
  - destruct (unsigned_fixed_text (scaled 2 x)) as (c & rest & v & Hc & Hd & Hv & Ev).
    exists v. split; [| exact Ev].
    rewrite Hc in *. cbn [Text.Number].
    assert (E : Ascii.eqb c "-" = false).
    { apply Ascii.eqb_neq. intros ->. unfold decimal_digit in Hd. cbn in Hd.
      repeat (destruct Hd as [Hd | Hd]; [discriminate Hd |]). contradiction. }
    rewrite E. exact Hv.
Qed.

Lemma scaled_2_floor (x : Q) :
  0 <= x -> Z.of_N (scaled 2 x) = Qfloor (x * 100 + (1 # 2)).
Proof.
  intro Hx. unfold scaled. change (inject_Z (10 ^ Z.of_nat 2)) with 100.
  apply Z2N.id. apply Qfloor_ge. change (inject_Z 0) with 0. lra.
Qed.

Lemma hundredths_near (x : Q) : Qabs (hundredths x - x) <= 1 # 200.
Proof.
  unfold hundredths. destruct (lt x 0) eqn:E.
  - apply lt_true_iff in E.
    assert (Hx : 0 <= - x) by lra.
    pose proof (scaled_2_near (- x) Hx) as H.
    apply Qabs_Qle_condition in H. apply Qabs_Qle_condition. lra.
  - apply lt_false_iff in E. apply scaled_2_near, E.
Qed.

Lemma hundredths_positive (x : Q) : 0 < hundredths x <-> 1 # 200 <= x.
Proof.
  unfold hundredths. destruct (lt x 0) eqn:E.
  - apply lt_true_iff in E.
    assert (Hx : 0 <= - x) by lra.
    rewrite (scaled_2_floor _ Hx).
    assert (Hf : (0 <= Qfloor (- x * 100 + (1 # 2)))%Z).
    { apply Qfloor_ge. change (inject_Z 0) with 0. lra. }
    apply (inject_Z_le 0) in Hf. change (inject_Z 0) with 0 in Hf.
    set (f := inject_Z (Qfloor (- x * 100 + (1 # 2)))) in *.
    setoid_replace (f / 100) with (f * (1 # 100)) by reflexivity.
    split; intro H; lra.
  - apply lt_false_iff in E. rewrite (scaled_2_floor _ E).
    set (y := x * 100 + (1 # 2)).
    setoid_replace (inject_Z (Qfloor y) / 100)
      with (inject_Z (Qfloor y) * (1 # 100)) by reflexivity.
    split; intro H.
    + assert (Hz : (0 < Qfloor y)%Z).
      { apply Z.lt_nge. intro Hle. apply (inject_Z_le _ 0) in Hle.
        change (inject_Z 0) with 0 in Hle. lra. }
      assert (H1 : (1 <= Qfloor y)%Z) by lia.
      apply (inject_Z_le 1) in H1. change (inject_Z 1) with 1 in H1.
      pose proof (Qfloor_le y) as Hy. unfold y in Hy at 2. lra.
    + assert (H1 : (1 <= Qfloor y)%Z).
      { apply Qfloor_ge. change (inject_Z 1) with 1. unfold y. lra. }
      apply (inject_Z_le 1) in H1. change (inject_Z 1) with 1 in H1. lra.
Qed.

Lemma StronglySorted_weaken {A : Type} (R R' : A -> A -> Prop) (l : list A) :
  (forall a b, R a b -> R' a b) -> StronglySorted R l -> StronglySorted R' l.
Proof.
  intro H. induction 1 as [| a l _ IH Ha]; constructor.
  - exact IH.
  - eapply Forall_impl; [apply H | exact Ha].
Qed.

Lemma traverse_bars (entries : list (string * Q)) :
  exists bars,
    Text.traverse
      (fun entry : string * Q =>
         let (name, impact) := entry in
         option_map (fun rounded => {| App.name := name; App.impact := rounded |})
           (Text.Number (toFixed 2 impact)))
      entries = Some bars /\
    Forall2 bar_of entries bars.
Proof.
  induction entries as [| [name impact] entries (bars & Hbars & Hall)].
  - exists []. split; [reflexivity | constructor].
  - destruct (Number_toFixed_2 impact) as (v & Hv & Ev).
    exists ({| App.name := name; App.impact := v |} :: bars).
    cbn [Text.traverse]. rewrite Hv, Hbars. split; [reflexivity |].
    constructor; [split; [reflexivity | exact Ev] | exact Hall].
Qed.

Lemma bars_names (entries : list (string * Q)) (bars : list App.Bar) :
  Forall2 bar_of entries bars -> map App.name bars = map fst entries.
Proof.
  induction 1 as [| entry bar entries bars [Hname _] _ IH]; cbn [map].
  - reflexivity.
  - rewrite Hname, IH. reflexivity.
Qed.

Lemma bars_entries (entries : list (string * Q)) (bars : list App.Bar)
    (bar : App.Bar) :
  Forall2 bar_of entries bars -> In bar bars ->
  exists entry, In entry entries /\ bar_of entry bar.
Proof.
  induction 1 as [| entry b entries bars Hb _ IH]; intro Hin; [contradiction |].
  destruct Hin as [-> | Hin].
  - exists entry. split; [left; reflexivity | exact Hb].
  - destruct (IH Hin) as (e & He & Hbar). exists e. split; [right |]; assumption.
Qed.

Lemma fill_blue (bar : App.Bar) :
  App.fill bar = "#3b82f6"%string <-> 0 < App.impact bar.
Proof.
  unfold App.fill. destruct (lt 0 (App.impact bar)) eqn:E.
  - apply lt_true_iff in E. split; [intros _; exact E | reflexivity].
  - apply lt_false_iff in E. split; [discriminate | intro H; exfalso; lra].
Qed.


Lemma name_injective (k k' : Key.t) : Key.name k = Key.name k' -> k = k'.
Proof. destruct k, k'; intro H; try reflexivity; discriminate H. Qed.

(** X14: a metric at its baseline or so little above it that its
    attribution stays below 0.005 gets no observation, yet its bar in the
    impact chart is filled with the red of the negative impacts. *)
Theorem small_gain_drawn_red (inputs : NIRFInputs) (k : Key.t) :
  BASELINES k <= prop inputs k ->
  attribution BASELINES inputs k < 1 # 200 ->
  exists result bars bar,
    predictStatic inputs = Fulfilled result /\
    App.shapData (Some result) = Some bars /\
    In bar bars /\
    App.name bar = Key.name k /\
    App.fill bar = "#f43f5e"%string /\
    ~ exists val, In (observation (Key.name k) val) (recommendations result).
Proof.
  intros Hbase Hsmall.
  destruct (observation_names_only_deficits inputs k)
    as (result & Hres & Hobserved & Hshap).
  destruct (traverse_bars (Object_entries (shap_values result)))
    as (bars & Hbars & Hall).
  pose proof (sort_Permutation (fun a b => App.impact b - App.impact a) bars)
    as Hperm.
  assert (Hname : In (Key.name k) (map App.name bars)).
  { rewrite (bars_names _ _ Hall), Hshap, shapValues_entries.
    unfold Object_entries. rewrite map_map. cbn [fst].
    apply in_map. destruct k; cbn; tauto. }
  apply in_map_iff in Hname. destruct Hname as (bar & Hbar & Hin).
  exists result, (sort (fun a b => App.impact b - App.impact a) bars), bar.
  split; [exact Hres |].
  split; [unfold App.shapData; rewrite Hbars; reflexivity |].
  split; [apply (Permutation_in _ Hperm), Hin |].
  split; [exact Hbar |]. split.
  - destruct (bars_entries _ _ _ Hall Hin) as ([name val] & Hentry & Hn & Himpact).
    cbn [fst snd] in *.
    rewrite Hshap, shapValues_entries in Hentry. unfold Object_entries in Hentry.
    apply in_map_iff in Hentry. destruct Hentry as (k' & Hk' & _).
    injection Hk' as Hk' <-. rewrite Hbar in Hn. rewrite <- Hn in Hk'.
    apply name_injective in Hk'. subst k'.
    unfold App.fill. destruct (lt 0 (App.impact bar)) eqn:E; [| reflexivity].
    exfalso. apply lt_true_iff in E. rewrite Himpact in E.
    apply hundredths_positive in E. lra.
  - intro Hobs. apply Hobserved in Hobs. lra.
Qed.

Lemma small_gain_drawn_red_witness :
  exists result bars bar,
    predictStatic baseline_profile = Fulfilled result /\
    App.shapData (Some result) = Some bars /\
    In bar bars /\
    App.name bar = "TLR"%string /\
    App.fill bar = "#f43f5e"%string /\
    ~ exists val, In (observation "TLR" val) (recommendations result).
Proof.
  apply (small_gain_drawn_red baseline_profile Key.TLR).
  - vm_compute. discriminate.
  - vm_compute. reflexivity.
Defined.

(** ** The gain Logic B simulates *)

Lemma weighted_sum_raise (inputs : NIRFInputs) (k : Key.t) (d : Q) :
  weighted_sum (raise inputs k d) == weighted_sum inputs + d * WEIGHTS k.
Proof.
  rewrite !weighted_sum_eq. destruct k; cbn [raise TLR RPC GO OI PR WEIGHTS]; ring.
Qed.

Lemma clamp_gain (x y : Q) : x <= y -> 0 <= clamp y - clamp x <= y - x.
Proof.
  intro H. unfold clamp.
  destruct (Q.max_spec 0 x) as [[Hx Ex] | [Hx Ex]];
    destruct (Q.max_spec 0 y) as [[Hy Ey] | [Hy Ey]];
    destruct (Q.min_spec 100 (Qmax 0 x)) as [[Hx' Ex'] | [Hx' Ex']];
    destruct (Q.min_spec 100 (Qmax 0 y)) as [[Hy' Ey'] | [Hy' Ey']];
    rewrite Ex', Ey'; rewrite ?Ex, ?Ey in *; split; lra.
Qed.

Lemma clamp_inside (x : Q) : 0 <= x <= 100 -> clamp x == x.
Proof.
  intros [Hlo Hhi]. unfold clamp.
  rewrite Q.max_r by exact Hlo. apply Q.min_r. exact Hhi.
Qed.


